(** * retry: a retry-until-success harness for test assertions

    A shallow embedding of [retry.go] (package [retry]) and the properties
    of its retry loop, its attempt context [R], its [Timer] policy and its
    log deduplication.

    Part I embeds the source, Part II names what the properties speak
    about, Part III proves them. *)

From Stdlib Require Import Ascii.
From stdpp Require Import base strings list gmap pretty relations.

Local Open Scope Z_scope.

(** * Part I: the package *)

(** ** Strings and call sites *)

(** [strings.LastIndex(s, sep)] for a one-byte separator: the index of the
    last occurrence, or -1. *)
Fixpoint LastIndex_from (i : Z) (found : Z) (s : string) (sep : Ascii.ascii)
  : Z :=
  match s with
  | EmptyString => found
  | String c s' =>
      LastIndex_from (i + 1) (if Ascii.eqb c sep then i else found) s' sep
  end.

Definition LastIndex (s : string) (sep : Ascii.ascii) : Z :=
  LastIndex_from 0 (-1) s sep.

(** The slice expression [s[n:]]. *)
Fixpoint string_from (n : nat) (s : string) : string :=
  match n, s with
  | O, _ => s
  | S n', String _ s' => string_from n' s'
  | S _, EmptyString => EmptyString
  end.

(** One entry of a goroutine's call stack: where the function of that
    frame is currently executing. *)
Record Frame := { file : string; line : Z }.

(** A call stack, innermost frame first. *)
Definition Stack := list Frame.

(** [runtime.Caller(skip)]: [skip] frames above the frame which calls
    [Caller], which is the head of the stack; [None] is [ok = false]. *)
Definition Caller (skip : nat) (stk : Stack) : option Frame := stk !! skip.

(** The source file of the package, as the frames of its own functions
    name it. *)
Definition retry_go : string := "github.com/travisjeffery/retry/retry.go".

(** A frame of a function of the package, at line [l] of [retry.go]. *)
Definition frame (l : Z) : Frame := {| file := retry_go; line := l |}.

(** [fmt.Sprintf("%s:%d: %s", file, line, s)]. *)
Definition Sprintf_loc (file : string) (line : Z) (s : string) : string :=
  file +:+ ":" +:+ pretty line +:+ ": " +:+ s.

(** [decorate], called with the stack of its callers. *)
Definition decorate (callers : Stack) (s : string) : string :=
  let '(file, line) :=
    match Caller 3 (frame 100 :: callers) with
    | Some fr =>
        let n := LastIndex (file fr) "/"%char in
        (if 0 <=? n then string_from (Z.to_nat (n + 1)) (file fr) else file fr,
         line fr)
    | None => ("???", 1)
    end in
  Sprintf_loc file line s.

(** ** Deduplication of the log *)

(** Go's [int] on a 64-bit platform. *)
Definition wrap_int (z : Z) : Z := (z + 2 ^ 63) `mod` 2 ^ 64 - 2 ^ 63.

(** The rune written by [b.WriteRune('\n')]. *)
Definition LF : string := String (ascii_of_nat 10) EmptyString.

(** First loop of [dedup]: [m[s] = m[s] + 1], a missing key reading as 0. *)
Definition dedup_count (m : gmap string Z) (s : string) : gmap string Z :=
  <[s := wrap_int (default 0 (m !! s) + 1)]> m.

(** Second loop of [dedup]: the map and the buffer after one element. *)
Definition dedup_emit (mb : gmap string Z * string) (s : string)
  : gmap string Z * string :=
  match mb.1 !! s with
  | Some _ => (delete s mb.1, (mb.2 +:+ s) +:+ LF)
  | None => mb
  end.

Definition dedup (a : list string) : string :=
  if decide (length a = 0%nat) then ""
  else
    let m := foldl dedup_count ∅ a in
    (foldl dedup_emit (m, "") a).2.

(** ** Goroutines that may unwind *)

(** How a call ends: it returns, or [runtime.Goexit] unwinds the goroutine
    that runs it, or the goroutine blocks forever. *)
Inductive Flow (A : Type) : Type :=
| Normal (a : A)
| Goexit
| Blocked.
Arguments Normal {A} a.
Arguments Goexit {A}.
Arguments Blocked {A}.

(** Code acting on a state [S] and producing an [A]. *)
Definition Go (S A : Type) : Type := S → Flow A * S.

#[export] Instance Go_ret {S} : MRet (Go S) := λ A a s, (Normal a, s).

#[export] Instance Go_bind {S} : MBind (Go S) := λ A B k m s,
  match m s with
  | (Normal a, s') => k a s'
  | (Goexit, s') => (Goexit, s')
  | (Blocked, s') => (Blocked, s')
  end.

Definition get {S} : Go S S := λ s, (Normal s, s).

Definition modify {S} (g : S → S) : Go S () := λ s, (Normal (), g s).

(** [runtime.Goexit()]. *)
Definition runtime_Goexit {S} : Go S () := λ s, (Goexit, s).

(** ** The attempt context [R] *)

(** An [error] value, observed through its [Error()] method. *)
Record error := { error_Error : string }.

Module R.

Record t := mk { fail : bool; output : list string }.

Definition set_fail (b : bool) (r : t) : t := mk b (output r).

Definition FailNow : Go t () :=
  modify (set_fail true);; runtime_Goexit.

(** [callers] is the stack of the callers of [log], innermost first. *)
Definition log (callers : Stack) (s : string) : Go t () :=
  modify (λ r, mk (fail r) (output r ++ [decorate (frame 72 :: callers) s])).

(** [Fatal] and [Fatalf] receive the text that [fmt.Sprint(args...)]
    and [fmt.Sprintf(format, args...)] make of their arguments. *)
Definition Fatal (callers : Stack) (sprint : string) : Go t () :=
  log (frame 50 :: callers) sprint;; FailNow.

Definition Fatalf (callers : Stack) (sprintf : string) : Go t () :=
  log (frame 55 :: callers) sprintf;; FailNow.

Definition Error (callers : Stack) (sprint : string) : Go t () :=
  log (frame 60 :: callers) sprint;; modify (set_fail true).

Definition Check (callers : Stack) (err : option error) : Go t () :=
  match err with
  | Some e => log (frame 66 :: callers) (error_Error e);; FailNow
  | None => mret ()
  end.

End R.

(** ** The host reporter [T] *)

(** The two methods are calls that return to the loop, as those of the
    reporter of the package's tests do. *)
Class T (St : Type) := {
  (** [Log(args ...interface{})], called with one string *)
  Log : string → St → St;
  FailNow : St → St
}.

(** The reporter of the package's tests. *)
Record fakeT := { failed : bool }.

#[export] Instance fakeT_T : T fakeT := {|
  Log := λ _ t, t;
  FailNow := λ _, {| failed := true |}
|}.

(** A reporter that writes down the calls it receives. *)
Inductive Report := Logged (text : string) | Abandoned.

#[export] Instance spy_T : T (list Report) := {|
  Log := λ text l, l ++ [Logged text];
  FailNow := λ l, l ++ [Abandoned]
|}.

(** ** The world around the loop *)

(** Instants and durations, in nanoseconds; an instant counts from the
    zero [time.Time]. *)
Abbreviation Time := Z.
Abbreviation Duration := Z.

(** [rr] is the attempt context the loop allocates, [clock] the reading of
    [time.Now()], [vars] the variables the check function captures,
    [reporter] the state of [t], and [calls] counts the calls [f(rr)]. *)
Record World (U St : Type) := mkWorld {
  rr : R.t;
  clock : Time;
  vars : U;
  reporter : St;
  calls : nat
}.
Arguments mkWorld {U St}.
Arguments rr {U St}.
Arguments clock {U St}.
Arguments vars {U St}.
Arguments reporter {U St}.
Arguments calls {U St}.

Definition set_rr {U St} (g : R.t → R.t) (w : World U St) : World U St :=
  mkWorld (g (rr w)) (clock w) (vars w) (reporter w) (calls w).

Definition set_clock {U St} (g : Time → Time) (w : World U St) : World U St :=
  mkWorld (rr w) (g (clock w)) (vars w) (reporter w) (calls w).

Definition set_vars {U St} (g : U → U) (w : World U St) : World U St :=
  mkWorld (rr w) (clock w) (g (vars w)) (reporter w) (calls w).

Definition set_reporter {U St} (g : St → St) (w : World U St) : World U St :=
  mkWorld (rr w) (clock w) (vars w) (g (reporter w)) (calls w).

Definition set_calls {U St} (g : nat → nat) (w : World U St) : World U St :=
  mkWorld (rr w) (clock w) (vars w) (reporter w) (g (calls w)).

(** A method of [rr], run in the world that holds [rr]. *)
Definition on_rr {U St A} (m : Go R.t A) : Go (World U St) A := λ w,
  let '(fl, r) := m (rr w) in (fl, set_rr (λ _, r) w).

(** ** Package [time] *)

Module time.

Definition Now {U St} : Go (World U St) Time := λ w, (Normal (clock w), w).

(** [time.Sleep(d)]: a negative or zero [d] returns at once. *)
Definition Sleep {U St} (d : Duration) : Go (World U St) () :=
  modify (set_clock (λ c, c + Z.max 0 d)).

Definition IsZero (t : Time) : bool := bool_decide (t = 0).

Definition Add (t : Time) (d : Duration) : Time := t + d.

(** [t.After(u)]: [t] is strictly later than [u]. *)
Definition After (t u : Time) : bool := bool_decide (u < t).

End time.

Definition Second : Duration := 1000000000.

Definition Millisecond : Duration := 1000000.

(** ** Retry policies *)

(** [Next(fail)] on a policy with state [P]: the answer and the policy's
    new state. *)
Class Retryer (W P : Type) := Next : Go W () → P → Go W (bool * P).

Module Timer.

(** [stop] is the deadline, the zero [time.Time] until the first [Next]. *)
Record t := mk { Timeout : Duration; Wait : Duration; stop : Time }.

Definition set_stop (s : Time) (r : t) : t := mk (Timeout r) (Wait r) s.

Definition Next {U St} (fail : Go (World U St) ()) (r : t)
  : Go (World U St) (bool * t) :=
  if time.IsZero (stop r) then
    now ← time.Now;
    mret (true, set_stop (time.Add now (Timeout r)) r)
  else
    now ← time.Now;
    if time.After now (stop r) then
      fail;; mret (false, r)
    else
      time.Sleep (Wait r);; mret (true, r).

End Timer.

#[export] Instance Timer_Retryer {U St} : Retryer (World U St) Timer.t :=
  Timer.Next.

(** [&Timer{Timeout: timeout, Wait: wait}]: the deadline starts as the zero
    [time.Time]. *)
Definition new_Timer (timeout wait : Duration) : Timer.t :=
  Timer.mk timeout wait 0.

(** ** Check functions *)

(** A call of a method of [R], with the arguments already formatted. *)
Inductive Op :=
| OpFailNow
| OpFatal (sprint : string)
| OpFatalf (sprintf : string)
| OpError (sprint : string)
| OpCheck (err : option error).

Definition R_call (callers : Stack) (op : Op) : Go R.t () :=
  match op with
  | OpFailNow => R.FailNow
  | OpFatal s => R.Fatal callers s
  | OpFatalf s => R.Fatalf callers s
  | OpError s => R.Error callers s
  | OpCheck err => R.Check callers err
  end.

(** A check function [func(r *R)]: what its body does, statement by
    statement.  [R] exports no field, so the body reaches [r] through the
    methods alone.  [Call site op rest] calls a method of [r] from the
    line [site] and goes on with [rest] if the call returns; [Local]
    updates the variables the function captures; [Spend] lets time pass
    (the body's own work, and any delay of the scheduler around it);
    [Branch] chooses what to do next from the captured variables. *)
Inductive Script (U : Type) : Type :=
| Return
| Call (site : Frame) (op : Op) (rest : Script U)
| Local (g : U → U) (rest : Script U)
| Spend (d : N) (rest : Script U)
| Branch (k : U → Script U).
Arguments Return {U}.
Arguments Call {U} site op rest.
Arguments Local {U} g rest.
Arguments Spend {U} d rest.
Arguments Branch {U} k.

(** The body at work.  The function literal of [run] calls [f(rr)] from
    line 146. *)
Fixpoint exec {U St} (f : Script U) : Go (World U St) () :=
  match f with
  | Return => mret ()
  | Call site op rest => on_rr (R_call [site; frame 146] op);; exec rest
  | Local g rest => modify (set_vars g);; exec rest
  | Spend d rest => modify (set_clock (λ c, c + Z.of_N d));; exec rest
  | Branch k => λ w, exec (k (vars w)) w
  end.

(** The call [f(rr)]. *)
Definition call {U St} (f : Script U) : Go (World U St) () :=
  modify (set_calls S);; exec f.

(** ** The loop *)

(** [sync.WaitGroup], as its counter. *)
Module WaitGroup.

Definition t := Z.

Definition zero : t := 0.

Definition Add (delta : Z) (wg : t) : t := wg + delta.

Definition Done (wg : t) : t := Add (-1) wg.

(** [Wait] returns once the counter is zero. *)
Definition Wait {S} (wg : t) : Go S () := λ s,
  if decide (wg = 0) then (Normal (), s) else (Blocked, s).

End WaitGroup.

(** One attempt:
    [var wg sync.WaitGroup; wg.Add(1);
     go func() { defer wg.Done(); f(rr) }(); wg.Wait()].
    The goroutine runs to its end while the loop waits; its deferred call
    runs when [f] returns and when [runtime.Goexit] unwinds it. *)
Definition attempt {U St} (f : Script U) : Go (World U St) () := λ w,
  let wg := WaitGroup.Add 1 WaitGroup.zero in
  let '(fl, w') := call f w in
  let wg := match fl with
            | Normal _ | Goexit => WaitGroup.Done wg
            | Blocked => wg
            end in
  WaitGroup.Wait wg w'.

(** The closure [fail] of [run]. *)
Definition fail {U St} `{!T St} : Go (World U St) () :=
  w ← get;
  let out := dedup (R.output (rr w)) in
  (if decide (out ≠ "") then modify (set_reporter (Log out)) else mret ());;
  modify (set_reporter FailNow).

(** How the [for] loop of [run] was left: by its [break], by [Next]
    answering false, or not yet after the iterations allowed. *)
Inductive Exit := Succeeded | GaveUp | OutOfFuel.

(** The [for] loop of [run], for at most [fuel] iterations. *)
Fixpoint loop {U St} `{!T St} {P} `{!Retryer (World U St) P}
    (fuel : nat) (r : P) (f : Script U) : Go (World U St) (Exit * P) :=
  match fuel with
  | O => mret (OutOfFuel, r)
  | S fuel' =>
      '(continue, r') ← Next fail r;
      if continue : bool then
        attempt f;;
        w ← get;
        if R.fail (rr w) then
          modify (set_rr (R.set_fail false));;
          loop fuel' r' f
        else mret (Succeeded, r')
      else mret (GaveUp, r')
  end.

(** [run], which starts from [rr := &R{}]. *)
Definition run {U St} `{!T St} {P} `{!Retryer (World U St) P}
    (fuel : nat) (r : P) (f : Script U) : Go (World U St) (Exit * P) :=
  modify (set_rr (λ _, R.mk false []));; loop fuel r f.

Definition RunWith {U St} `{!T St} {P} `{!Retryer (World U St) P}
    (fuel : nat) (r : P) (f : Script U) : Go (World U St) (Exit * P) :=
  run fuel r f.

(** [Run] retries on a 25 ms interval for 2 s. *)
Definition Run {U St} `{!T St} (fuel : nat) (f : Script U)
  : Go (World U St) (Exit * Timer.t) :=
  RunWith fuel (new_Timer (2 * Second) (25 * Millisecond)) f.

(** * Part II: what the properties speak about *)

(** ** The report *)

(** The distinct lines of [a] in the order in which they first occur,
    leaving out those already [seen]. *)
Fixpoint first_seen (seen a : list string) : list string :=
  match a with
  | [] => []
  | s :: a' =>
      if decide (s ∈ seen) then first_seen seen a'
      else s :: first_seen (s :: seen) a'
  end.

(** Every line followed by a newline. *)
Fixpoint lines (l : list string) : string :=
  match l with
  | [] => ""
  | s :: l' => (s +:+ LF) +:+ lines l'
  end.

(** What the closure [fail] tells the reporter when the log is [log]. *)
Definition abandon_with {St} `{!T St} (log : list string) (t : St) : St :=
  let out := dedup log in
  FailNow (if decide (out ≠ "") then Log out t else t).

(** ** Recorded lines *)

(** The file name without its directories, as [decorate] cuts it. *)
Definition basename (path : string) : string :=
  let n := LastIndex path "/"%char in
  if 0 <=? n then string_from (Z.to_nat (n + 1)) path else path.

(** A message with the place of the call in front. *)
Definition located (site : Frame) (s : string) : string :=
  basename (file site) +:+ ":" +:+ pretty (line site) +:+ ": " +:+ s.

(** The context after a line was recorded from [site], with fail flag [b]. *)
Definition record (b : bool) (site : Frame) (s : string) (r : R.t) : R.t :=
  R.mk b (R.output r ++ [located site s]).

(** ** Check functions *)

(** The methods whose call unwinds the attempt. *)
Definition abrupt (op : Op) : bool :=
  match op with
  | OpFailNow | OpFatal _ | OpFatalf _ | OpCheck (Some _) => true
  | OpError _ | OpCheck None => false
  end.

(** [seq f g]: the body [f] with the code [g] written after it. *)
Fixpoint seq {U} (f g : Script U) : Script U :=
  match f with
  | Return => g
  | Call site op rest => Call site op (seq rest g)
  | Local h rest => Local h (seq rest g)
  | Spend d rest => Spend d (seq rest g)
  | Branch k => Branch (λ u, seq (k u) g)
  end.

(** A body that calls no method of [R], but for [Check] with nil. *)
Fixpoint quiet {U} (f : Script U) : Prop :=
  match f with
  | Return => True
  | Call _ op rest => op = OpCheck None ∧ quiet rest
  | Local _ rest => quiet rest
  | Spend _ rest => quiet rest
  | Branch k => ∀ u, quiet (k u)
  end.

(** A check function that ends unwound at every call and takes the time
    [d] each time. *)
Definition fails_in {U St} (d : Z) (f : Script U) : Prop :=
  ∀ w : World U St, (exec f w).1 = Goexit ∧ clock (exec f w).2 = clock w + d.

(** What an attempt can do to the world: it leaves the reporter and the
    count of calls alone, lets time pass, adds lines at the end of the
    log, may set the fail flag but never clears it, and has set it when it
    ends unwound.  It never blocks. *)
Record attempt_effect {U St} (w w' : World U St) (fl : Flow ()) : Prop := {
  eff_flow : fl ≠ Blocked;
  eff_reporter : reporter w' = reporter w;
  eff_calls : calls w' = calls w;
  eff_clock : clock w ≤ clock w';
  eff_output : R.output (rr w) `prefix_of` R.output (rr w');
  eff_fail_kept : R.fail (rr w) = true → R.fail (rr w') = true;
  eff_fail_unwound : fl = Goexit → R.fail (rr w') = true
}.

(** ** Time and the turns of the loop *)

(** A [time.Duration] is a 64-bit integer. *)
Definition is_Duration (d : Z) : Prop := - 2 ^ 63 ≤ d < 2 ^ 63.

(** The clock reads an instant that no [time.Duration] separates from the
    zero [time.Time], which lies in the year 1. *)
Definition clock_started {U St} (w : World U St) : Prop := 2 ^ 63 < clock w.

(** The world in which the loop starts, after [rr := &R{}]. *)
Definition start {U St} (w : World U St) : World U St :=
  set_rr (λ _, R.mk false []) w.

(** The three ways in which [Next] answers in the loop. *)
Inductive Next_view {U St} `{!T St} (r : Timer.t) (w : World U St)
  : Flow (bool * Timer.t) * World U St → Prop :=
| Next_arms :
    Timer.stop r = 0 →
    Next_view r w
      (Normal (true, Timer.set_stop (clock w + Timer.Timeout r) r), w)
| Next_stops :
    Timer.stop r ≠ 0 → Timer.stop r < clock w →
    Next_view r w
      (Normal (false, r), set_reporter (abandon_with (R.output (rr w))) w)
| Next_sleeps :
    Timer.stop r ≠ 0 → clock w ≤ Timer.stop r →
    Next_view r w
      (Normal (true, r), set_clock (λ c, c + Z.max 0 (Timer.Wait r)) w).

(** One turn of the loop that ends with [continue]: from one call of
    [Next] to the next, through an attempt that failed. *)
Inductive step {U St} `{!T St} (f : Script U)
  : relation (Timer.t * World U St) :=
| step_retry r w r' w1 w2 :
    Next fail r w = (Normal (true, r'), w1) →
    attempt f w1 = (Normal (), w2) →
    R.fail (rr w2) = true →
    step f (r, w) (r', set_rr (R.set_fail false) w2).

(** The turn in which the loop is left. *)
Inductive finish {U St} `{!T St} (f : Script U)
  : Timer.t * World U St → Exit → Timer.t * World U St → Prop :=
| finish_give_up r w r' w' :
    Next fail r w = (Normal (false, r'), w') →
    finish f (r, w) GaveUp (r', w')
| finish_success r w r' w1 w2 :
    Next fail r w = (Normal (true, r'), w1) →
    attempt f w1 = (Normal (), w2) →
    R.fail (rr w2) = false →
    finish f (r, w) Succeeded (r', w2).

(** The states in which the loop of a run started in [w0], with a fresh
    [Timer] and attempts no longer than [longest], calls [Next]. *)
Definition at_Next {U St} (timeout wait longest : Z) (w0 : World U St)
    (s : Timer.t * World U St) : Prop :=
  s = (new_Timer timeout wait, start w0)
  ∨ s.1 = Timer.set_stop (clock w0 + timeout) (new_Timer timeout wait)
    ∧ clock s.2 ≤ clock w0 + timeout + wait + longest.

(** ** The tests of the package *)

(** A clock reading of the year 2026, in nanoseconds from the zero time. *)
Definition year_2026 : Time := 63900000000000000000.

(** A world with a reporter that writes down its calls and a check
    function that captures one counter. *)
Definition world_2026 : World nat (list Report) :=
  mkWorld (R.mk false []) year_2026 0%nat [] 0%nat.

Definition test_line : Frame :=
  {| file := "/home/u/retry/retry_test.go"; line := 19 |}.

(** [func(r *retry.R) { *calls++; r.Fatalf("fail") }], each call of which
    takes the time [d]. *)
Definition test_fail (d : N) : Script nat :=
  Local S (Spend d (Call test_line (OpFatalf "fail") Return)).

(** [func(r *retry.R) { *calls++ }], taking the time [d]. *)
Definition test_pass (d : N) : Script nat :=
  Local S (Spend d Return).

(** [&retry.Timer{Timeout: 1 * time.Second, Wait: 100 * time.Millisecond}]. *)
Definition test_Timer : Timer.t := new_Timer (1 * Second) (100 * Millisecond).


(** * Part III: properties *)

(** ** [dedup] *)

Lemma string_app_assoc (a b c : string) : (a +:+ b) +:+ c = a +:+ (b +:+ c).
Proof.
  induction a as [|x a IH]; [done|].
  change (String x ((a +:+ b) +:+ c) = String x (a +:+ (b +:+ c))).
  by rewrite IH.
Qed.

Lemma string_app_empty_r (a : string) : a +:+ "" = a.
Proof.
  induction a as [|x a IH]; [done|].
  change (String x (a +:+ "") = String x a). by rewrite IH.
Qed.

Lemma dedup_count_keys (a : list string) (m : gmap string Z) (s : string) :
  is_Some (foldl dedup_count m a !! s) ↔ s ∈ a ∨ is_Some (m !! s).
Proof.
  revert m. induction a as [|x a IH]; intros m; simpl.
  - rewrite elem_of_nil. tauto.
  - rewrite IH, elem_of_cons. unfold dedup_count.
    destruct (decide (x = s)) as [->|Hne].
    + rewrite lookup_insert_eq. split; [auto | intros _; right; eauto].
    + rewrite lookup_insert_ne by done. split; intros [H|H]; auto.
      destruct H as [H|H]; [congruence | auto].
Qed.

(** The second loop writes the first occurrences among the keys left. *)
Lemma dedup_emit_first_seen (a seen : list string) (m : gmap string Z)
    (b : string) :
  (∀ s, s ∈ a → (is_Some (m !! s) ↔ s ∉ seen)) →
  (foldl dedup_emit (m, b) a).2 = b +:+ lines (first_seen seen a).
Proof.
  revert seen m b. induction a as [|x a IH]; intros seen m b Hkeys; simpl.
  - by rewrite string_app_empty_r.
  - unfold dedup_emit at 2; simpl.
    assert (Hx : is_Some (m !! x) ↔ x ∉ seen) by (apply Hkeys; left).
    destruct (decide (x ∈ seen)) as [Hin|Hnin].
    + destruct (m !! x) as [v|] eqn:Hm.
      * exfalso. apply Hx; eauto.
      * apply IH. intros s Hs. apply Hkeys. by right.
    + destruct (m !! x) as [v|] eqn:Hm.
      * rewrite (IH (x :: seen)).
        { simpl. by rewrite !string_app_assoc. }
        intros s Hs. rewrite not_elem_of_cons.
        destruct (decide (s = x)) as [->|Hne].
        -- rewrite lookup_delete_eq. split; [by intros [? ?] | tauto].
        -- rewrite lookup_delete_ne by done.
           rewrite (Hkeys s) by (by right). tauto.
      * exfalso. destruct (proj2 Hx Hnin) as [? ?]; congruence.
Qed.

Lemma first_seen_elem (a seen : list string) (s : string) :
  s ∈ first_seen seen a ↔ s ∈ a ∧ s ∉ seen.
Proof.
  revert seen. induction a as [|x a IH]; intros seen; simpl.
  - rewrite elem_of_nil. tauto.
  - destruct (decide (x ∈ seen)) as [Hin|Hnin].
    + rewrite IH, elem_of_cons. split; [tauto|].
      intros [[->|H] Hs]; tauto.
    + rewrite elem_of_cons, IH, !elem_of_cons.
      destruct (decide (s = x)) as [->|Hne]; tauto.
Qed.

Lemma first_seen_NoDup (a seen : list string) : NoDup (first_seen seen a).
Proof.
  revert seen. induction a as [|x a IH]; intros seen; simpl.
  - constructor.
  - destruct (decide (x ∈ seen)); [apply IH|].
    constructor; [|apply IH].
    rewrite first_seen_elem, elem_of_cons. tauto.
Qed.

(** C2. The report made of the recorded lines holds every distinct line
    once, in the order of first occurrence, each followed by a newline:
    [dedup] writes the lines of [first_seen], which has no duplicate and
    the same members as the log; the log a, b, a, c, b gives the three
    lines a, b, c and the empty log gives the empty string. *)
Theorem dedup_first_occurrences (a : list string) :
  dedup a = lines (first_seen [] a)
  ∧ NoDup (first_seen [] a)
  ∧ (∀ s, s ∈ first_seen [] a ↔ s ∈ a)
  ∧ dedup ["a"; "b"; "a"; "c"; "b"] = "a" +:+ LF +:+ "b" +:+ LF +:+ "c" +:+ LF
  ∧ dedup [] = "".
Proof.
  split; [|split; [|split; [|split]]].
  - unfold dedup. destruct (decide (length a = 0%nat)) as [Hlen|Hlen].
    + by destruct a.
    + rewrite (dedup_emit_first_seen a []); [done|].
      intros s Hs. rewrite dedup_count_keys, elem_of_nil. tauto.
  - apply first_seen_NoDup.
  - intros s. rewrite first_seen_elem, elem_of_nil. tauto.
  - vm_compute. reflexivity.
  - reflexivity.
Qed.
(** ** The methods of [R] *)

(** Three frames above [decorate] is the caller of the exported method. *)
Lemma decorate_call_site (in_log in_method site : Frame) (above : Stack)
    (s : string) :
  decorate (in_log :: in_method :: site :: above) s = located site s.
Proof. reflexivity. Qed.

(** With fewer frames the place is unknown. *)
Lemma decorate_unknown (in_log in_method : Frame) (s : string) :
  decorate [in_log; in_method] s = "???:1: " +:+ s.
Proof. reflexivity. Qed.

Example located_ex :
  located {| file := "/home/u/retry/retry_test.go"; line := 19 |} "fail"
  = "retry_test.go:19: fail".
Proof. vm_compute. reflexivity. Qed.

Lemma world_eta {U St} (w : World U St) : set_rr (λ _, rr w) w = w.
Proof. by destruct w. Qed.

Section methods.
Context {U St : Type} `{!T St}.
Implicit Types (w : World U St) (r : R.t) (site : Frame) (above : Stack).

(** C7. [Error] adds one line, the message with the place of the call in
    front, to the log and sets the fail flag; it returns to its caller,
    so that the rest of the check function runs in the same attempt. *)
Theorem Error_records_and_returns site above s r (rest : Script U) w :
  R.Error (site :: above) s r
    = (Normal (), R.mk true (R.output r ++ [located site s]))
  ∧ exec (Call site (OpError s) rest) w
    = exec rest (set_rr (record true site s) w).
Proof.
  split; [reflexivity|].
  destruct w as [r' c v t n]. reflexivity.
Qed.

(** C8. [Check] with an error adds the line of the error's message, with
    the place of the call in front, and unwinds the attempt as [Fatal]
    with that message does; with nil it changes neither the log nor the
    fail flag and returns. *)
Theorem Check_error_or_nil site above (e : error) r (rest : Script U) w :
  R.Check (site :: above) (Some e) r
    = (Goexit, R.mk true (R.output r ++ [located site (error_Error e)]))
  ∧ R.Check (site :: above) (Some e) r
    = R.Fatal (site :: above) (error_Error e) r
  ∧ exec (Call site (OpCheck (Some e)) rest) w
    = (Goexit, set_rr (record true site (error_Error e)) w)
  ∧ R.Check (site :: above) None r = (Normal (), r)
  ∧ exec (Call site (OpCheck None) rest) w = exec rest w.
Proof.
  repeat split. destruct w as [r' c v t n]. reflexivity.
Qed.

End methods.

(** ** Attempts *)

Lemma R_call_cases (callers : Stack) (op : Op) (r : R.t) :
  ∃ added,
    R_call callers op r
    = (if abrupt op then Goexit else Normal (),
       R.mk (match op with OpCheck None => R.fail r | _ => true end)
            (R.output r ++ added)).
Proof.
  destruct op as [| s | s | s | [e|]]; simpl.
  - exists []. rewrite app_nil_r. reflexivity.
  - eexists [_]. reflexivity.
  - eexists [_]. reflexivity.
  - eexists [_]. reflexivity.
  - eexists [_]. reflexivity.
  - exists []. rewrite app_nil_r. by destruct r.
Qed.

Section attempts.
Context {U St : Type} `{!T St}.
Implicit Types (w : World U St) (f g : Script U).

Lemma exec_Call site op rest w :
  exec (Call site op rest) w
  = let '(fl, r) := R_call [site; frame 146] op (rr w) in
    match fl with
    | Normal _ => exec rest (set_rr (λ _, r) w)
    | Goexit => (Goexit, set_rr (λ _, r) w)
    | Blocked => (Blocked, set_rr (λ _, r) w)
    end.
Proof.
  simpl. unfold mbind, Go_bind, on_rr.
  destruct (R_call _ op (rr w)) as [[[]| |] r]; reflexivity.
Qed.

Lemma exec_effect f w : attempt_effect w (exec f w).2 (exec f w).1.
Proof.
  revert w. induction f as [|site op rest IH|h rest IH|d rest IH|k IH];
    intros w.
  - by split.
  - rewrite exec_Call.
    destruct (R_call_cases [site; frame 146] op (rr w)) as [added ->].
    set (w1 := set_rr _ w).
    assert (Hout : R.output (rr w) `prefix_of` R.output (rr w1))
      by (by exists added).
    destruct (abrupt op) eqn:Hop.
    + split; simpl; try done. all: by destruct op as [| | | |[|]].
    + destruct (IH w1) as [? ? ? ? ? Hk ?]. split; try done.
      * by etrans.
      * intros Hf. apply Hk. simpl. by destruct op as [| | | |[|]].
  - destruct (IH (set_vars h w)) as [? ? ? ? ? ? ?]. by split.
  - destruct (IH (set_clock (λ c, c + Z.of_N d) w)) as [? ? ? Hc ? ? ?].
    split; try done. simpl in Hc. change (exec (Spend d rest) w)
      with (exec rest (set_clock (λ c, c + Z.of_N d) w)). lia.
  - apply (IH (vars w) w).
Qed.

(** Code written after a body that ends unwound does not run. *)
Lemma exec_seq f g w :
  exec (seq f g) w
  = match exec f w with
    | (Normal _, w') => exec g w'
    | (fl, w') => (fl, w')
    end.
Proof.
  revert w. induction f as [|site op rest IH|h rest IH|d rest IH|k IH];
    intros w; simpl seq.
  - reflexivity.
  - rewrite !exec_Call.
    destruct (R_call _ op (rr w)) as [[[]| |] r]; [apply IH|done..].
  - apply (IH (set_vars h w)).
  - apply (IH (set_clock (λ c, c + Z.of_N d) w)).
  - apply (IH (vars w) w).
Qed.

Lemma call_eq f w :
  call f w = exec f (set_calls S w).
Proof. reflexivity. Qed.

(** The loop gets the control back after every attempt. *)
Lemma attempt_returns f w : attempt f w = (Normal (), (call f w).2).
Proof.
  unfold attempt. rewrite call_eq.
  pose proof (eff_flow _ _ _ (exec_effect f (set_calls S w))) as Hfl.
  destruct (exec f (set_calls S w)) as [[[]| |] w']; simpl in *; done.
Qed.

End attempts.

(** ** The [Timer] policy *)

Lemma two_63 : 2 ^ 63 = 9223372036854775808.
Proof. reflexivity. Qed.

Section Timer.
Context {U St : Type} `{!T St}.
Implicit Types (w : World U St) (r : Timer.t) (f : Script U).
Implicit Types (fail : Go (World U St) ()).

Lemma Next_first fail r w :
  Timer.stop r = 0 →
  Timer.Next fail r w
  = (Normal (true, Timer.set_stop (clock w + Timer.Timeout r) r), w).
Proof. intros Hz. unfold Timer.Next, time.IsZero. by rewrite Hz. Qed.

Lemma Next_past fail r w :
  Timer.stop r ≠ 0 → Timer.stop r < clock w →
  Timer.Next fail r w = (fail;; mret (false, r)) w.
Proof.
  intros Hset Hpast. unfold Timer.Next, time.IsZero.
  rewrite bool_decide_eq_false_2 by done.
  unfold mbind at 1, Go_bind, time.Now, time.After.
  by rewrite bool_decide_eq_true_2.
Qed.

Lemma Next_wait fail r w :
  Timer.stop r ≠ 0 → clock w ≤ Timer.stop r →
  Timer.Next fail r w
  = (Normal (true, r), set_clock (λ c, c + Z.max 0 (Timer.Wait r)) w).
Proof.
  intros Hset Hpast. unfold Timer.Next, time.IsZero.
  rewrite bool_decide_eq_false_2 by done.
  unfold mbind at 1, Go_bind, time.Now, time.After.
  rewrite bool_decide_eq_false_2 by lia. reflexivity.
Qed.

(** C4. On a [Timer] whose deadline is unset, whatever its [Timeout] and
    [Wait], [Next] sets the deadline to the present instant plus
    [Timeout] and answers true without calling [fail]; the deadline is
    then set.  Once the deadline is set, [Next] calls [fail] once and
    answers false when the present instant is past the deadline, and
    otherwise sleeps for [Wait] and answers true without calling
    [fail]. *)
Theorem Timer_Next_decides fail r w :
  is_Duration (Timer.Timeout r) → clock_started w →
  (Timer.stop r = 0 →
     Timer.Next fail r w
     = (Normal (true, Timer.set_stop (clock w + Timer.Timeout r) r), w)
     ∧ clock w + Timer.Timeout r ≠ 0)
  ∧ (Timer.stop r ≠ 0 → Timer.stop r < clock w →
     Timer.Next fail r w = (fail;; mret (false, r)) w)
  ∧ (Timer.stop r ≠ 0 → clock w ≤ Timer.stop r →
     Timer.Next fail r w = (time.Sleep (Timer.Wait r);; mret (true, r)) w).
Proof.
  intros HT Hc. unfold is_Duration, clock_started in *.
  rewrite two_63 in *.
  split; [|split].
  - intros Hz. split; [by apply Next_first | lia].
  - apply Next_past.
  - intros Hset Hle. by rewrite Next_wait.
Qed.

End Timer.

(** ** The loop *)

Section loop.
Context {U St : Type} `{!T St}.
Implicit Types (w : World U St) (r : Timer.t) (f : Script U).

Lemma fail_eq w :
  fail w = (Normal (), set_reporter (abandon_with (R.output (rr w))) w).
Proof.
  unfold fail, abandon_with, get, mbind, Go_bind. simpl.
  destruct (decide (dedup (R.output (rr w)) ≠ "")); reflexivity.
Qed.

Lemma Next_cases r w : Next_view r w (Next (fail (U:=U)) r w).
Proof.
  unfold Next, Timer_Retryer.
  destruct (decide (Timer.stop r = 0)) as [Hz|Hset].
  - rewrite Next_first by done. by constructor.
  - destruct (decide (Timer.stop r < clock w)) as [Hpast|Hnot].
    + rewrite Next_past by done. unfold mbind, Go_bind.
      rewrite fail_eq. by constructor.
    + rewrite Next_wait by (done || lia). constructor; [done | lia].
Qed.

Lemma loop_S n r f w :
  loop (S n) r f w
  = match Next fail r w with
    | (Normal (true, r'), w1) =>
        if R.fail (rr (call f w1).2)
        then loop n r' f (set_rr (R.set_fail false) (call f w1).2)
        else (Normal (Succeeded, r'), (call f w1).2)
    | (Normal (false, r'), w1) => (Normal (GaveUp, r'), w1)
    | (Goexit, w1) => (Goexit, w1)
    | (Blocked, w1) => (Blocked, w1)
    end.
Proof.
  simpl. unfold mbind at 1, Go_bind at 1.
  destruct (Next fail r w) as [[[[|] r']| |] w1]; try reflexivity.
  unfold mbind at 1, Go_bind at 1. rewrite attempt_returns.
  unfold mbind at 1, Go_bind at 1, get.
  destruct (R.fail (rr (call f w1).2)); reflexivity.
Qed.

Lemma loop_step n f r w r' w' :
  step f (r, w) (r', w') → loop (S n) r f w = loop n r' f w'.
Proof.
  inversion 1 as [? ? ? w1 w2 HN Ha Hf]; subst.
  rewrite loop_S, HN. rewrite attempt_returns in Ha.
  injection Ha as <-. by rewrite Hf.
Qed.

Lemma loop_finish n f r w e r' w' :
  finish f (r, w) e (r', w') → loop (S n) r f w = (Normal (e, r'), w').
Proof.
  inversion 1 as [? ? ? ? HN|? ? ? w1 w2 HN Ha Hf]; subst;
    rewrite loop_S, HN; [done|].
  rewrite attempt_returns in Ha. injection Ha as <-. by rewrite Hf.
Qed.

(** The loop goes through failed turns and then is left, or is still
    running when the iterations allowed are used up; it never ends
    unwound or blocked. *)
Lemma loop_decompose n r f w :
  ∃ e r' w' r1 w1,
    loop n r f w = (Normal (e, r'), w')
    ∧ rtc (step f) (r, w) (r1, w1)
    ∧ (e = OutOfFuel ∧ r' = r1 ∧ w' = w1 ∨ finish f (r1, w1) e (r', w')).
Proof.
  revert r w. induction n as [|n IH]; intros r w.
  - exists OutOfFuel, r, w, r, w. split; [done|]. split; [done | by left].
  - destruct (Next fail r w) as [fl w1] eqn:HN.
    pose proof (Next_cases r w) as Hv. rewrite HN in Hv.
    assert (∃ b r', fl = Normal (b, r')) as (b & r' & ->)
      by (inversion Hv; eauto).
    destruct b.
    + destruct (R.fail (rr (call f w1).2)) eqn:Hf.
      * assert (Hs : step f (r, w)
                  (r', set_rr (R.set_fail false) (call f w1).2))
          by (econstructor; [done | apply attempt_returns | done]).
        destruct (IH r' (set_rr (R.set_fail false) (call f w1).2))
          as (e & r2 & w2 & r3 & w3 & Hl & Hr & He).
        exists e, r2, w2, r3, w3. split; [|split; [|done]].
        -- by rewrite (loop_step _ _ _ _ _ _ Hs).
        -- by eapply rtc_l.
      * assert (Hfin : finish f (r, w) Succeeded (r', (call f w1).2))
          by (econstructor; [done | apply attempt_returns | done]).
        exists Succeeded, r', (call f w1).2, r, w.
        split; [by apply loop_finish|]. split; [done | by right].
    + assert (Hfin : finish f (r, w) GaveUp (r', w1)) by by constructor.
      exists GaveUp, r', w1, r, w.
      split; [by apply loop_finish|]. split; [done | by right].
Qed.

End loop.

Section run_properties.
Context {U St : Type} `{!T St}.
Implicit Types (w : World U St) (r : Timer.t) (f g pre : Script U).

Lemma run_eq n r f w : run n r f w = loop n r f (start w).
Proof. reflexivity. Qed.

Lemma abrupt_cut site op g w :
  abrupt op = true →
  exec (Call site op g) w = exec (Call site op Return) w
  ∧ (exec (Call site op Return) w).1 = Goexit.
Proof.
  intros Hop. rewrite !exec_Call.
  destruct (R_call_cases [site; frame 146] op (rr w)) as [added ->].
  by rewrite Hop.
Qed.

(** C3. When the check function reaches a call of [FailNow], [Fatal],
    [Fatalf] or [Check] with an error, the code [g] written after the
    call does not run: the attempt ends as the body cut at the call
    does.  The goroutine of the attempt is unwound with the fail flag
    set, the loop gets the control back from [wg.Wait()], clears the
    flag and goes to its next turn, which starts with [Next]. *)
Theorem abrupt_fail_contained pre site op g w0 :
  abrupt op = true →
  (call pre w0).1 = Normal () →
  let f := seq pre (Call site op g) in
  let w2 := (call (seq pre (Call site op Return)) w0).2 in
  call f w0 = (Goexit, w2)
  ∧ attempt f w0 = (Normal (), w2)
  ∧ R.fail (rr w2) = true
  ∧ ∀ n r r' w,
      Next fail r w = (Normal (true, r'), w0) →
      loop (S n) r f w = loop n r' f (set_rr (R.set_fail false) w2).
Proof.
  intros Hop Hpre f w2.
  assert (Hcall : call f w0 = (Goexit, w2)).
  { unfold w2, f. rewrite !call_eq, !exec_seq. rewrite call_eq in Hpre.
    destruct (exec pre (set_calls S w0)) as [[[]| |] w1]; try done.
    destruct (abrupt_cut site op g w1 Hop) as [-> Hfl].
    by destruct (exec (Call site op Return) w1) as [[[]| |] w3]. }
  assert (Hfail : R.fail (rr w2) = true).
  { pose proof (exec_effect f (set_calls S w0)) as He.
    rewrite <- call_eq, Hcall in He. by apply (eff_fail_unwound _ _ _ He). }
  split; [done|]. split; [by rewrite attempt_returns, Hcall|].
  split; [done|]. intros n r r' w HN.
  rewrite loop_S, HN, Hcall. simpl. by rewrite Hfail.
Qed.

Lemma quiet_exec f w :
  quiet f → (exec f w).1 = Normal () ∧ rr (exec f w).2 = rr w.
Proof.
  revert w. induction f as [|site op rest IH|h rest IH|d rest IH|k IH];
    intros w Hq; simpl in Hq.
  - done.
  - destruct Hq as [-> Hq]. rewrite exec_Call. simpl.
    destruct (IH (set_rr (λ _, rr w) w) Hq) as [-> ->]. done.
  - apply (IH (set_vars h w) Hq).
  - apply (IH (set_clock (λ c, c + Z.of_N d) w) Hq).
  - apply (IH (vars w) w (Hq (vars w))).
Qed.

(** C6. With a check function that records no failure, the loop run
    with a [Timer] calls it once and is left by its [break]; the
    reporter receives neither [Log] nor [FailNow]. *)
Theorem quiet_check_runs_once f n timeout wait w :
  quiet f →
  ∃ r' w',
    RunWith (S n) (new_Timer timeout wait) f w = (Normal (Succeeded, r'), w')
    ∧ calls w' = S (calls w)
    ∧ reporter w' = reporter w
    ∧ rr w' = R.mk false [].
Proof.
  intros Hq. unfold RunWith. rewrite run_eq, loop_S.
  unfold Next, Timer_Retryer. rewrite Next_first by done.
  rewrite call_eq.
  destruct (quiet_exec f (set_calls S (start w)) Hq) as [_ Hrr].
  pose proof (exec_effect f (set_calls S (start w))) as He.
  rewrite Hrr. simpl. eexists _, _. split; [done|].
  split; [apply (eff_calls _ _ _ He)|].
  split; [apply (eff_reporter _ _ _ He) | done].
Qed.

End run_properties.

Section invariants.
Context {U St : Type} `{!T St}.
Implicit Types (w : World U St) (r : Timer.t) (f : Script U).

Lemma call_effect f w :
  attempt_effect (set_calls S w) (call f w).2 (call f w).1.
Proof. rewrite call_eq. apply exec_effect. Qed.

(** What [Next] leaves as it is when it answers true. *)
Lemma Next_true_effect r w r' w1 :
  Next fail r w = (Normal (true, r'), w1) →
  rr w1 = rr w ∧ reporter w1 = reporter w ∧ calls w1 = calls w
  ∧ vars w1 = vars w
  ∧ (Timer.stop r = 0 ∧ r' = Timer.set_stop (clock w + Timer.Timeout r) r
       ∧ clock w1 = clock w
     ∨ Timer.stop r ≠ 0 ∧ r' = r ∧ clock w ≤ Timer.stop r
       ∧ clock w1 = clock w + Z.max 0 (Timer.Wait r)).
Proof.
  intros HN. pose proof (Next_cases r w) as Hv. rewrite HN in Hv.
  inversion Hv; subst; simpl; auto 10.
Qed.

(** What [Next] does when it answers false. *)
Lemma Next_false_effect r w r' w1 :
  Next fail r w = (Normal (false, r'), w1) →
  r' = r ∧ Timer.stop r ≠ 0 ∧ Timer.stop r < clock w
  ∧ w1 = set_reporter (abandon_with (R.output (rr w))) w.
Proof.
  intros HN. pose proof (Next_cases r w) as Hv. rewrite HN in Hv.
  inversion Hv; subst; auto.
Qed.

Lemma step_effect f r w r' w' :
  step f (r, w) (r', w') →
  R.fail (rr w') = false
  ∧ R.output (rr w) `prefix_of` R.output (rr w')
  ∧ reporter w' = reporter w
  ∧ calls w' = S (calls w)
  ∧ clock w ≤ clock w'.
Proof.
  inversion 1 as [? ? ? w1 w2 HN Ha Hf]; subst.
  rewrite attempt_returns in Ha. injection Ha as <-.
  destruct (Next_true_effect _ _ _ _ HN) as (Hrr & Hrep & Hc & _ & Hclk).
  destruct (call_effect f w1) as [_ Hr Hn Hk Ho _ _]. simpl in *.
  rewrite <- Hrr, <- Hrep, <- Hc. repeat split; try done. lia.
Qed.

Lemma steps_effect f r w r' w' :
  rtc (step f) (r, w) (r', w') →
  R.output (rr w) `prefix_of` R.output (rr w')
  ∧ reporter w' = reporter w
  ∧ (calls w ≤ calls w')%nat
  ∧ clock w ≤ clock w'.
Proof.
  intros Hrtc.
  enough (Hall : ∀ s, rtc (step f) (r, w) s →
            R.output (rr w) `prefix_of` R.output (rr s.2)
            ∧ reporter s.2 = reporter w
            ∧ (calls w ≤ calls s.2)%nat
            ∧ clock w ≤ clock s.2) by apply (Hall _ Hrtc).
  clear r' w' Hrtc. apply rtc_ind_r; [done|].
  intros [r1 w1] [r2 w2] _.
  intros Hs (Ho & Hr & Hc & Hk); simpl in *.
  destruct (step_effect _ _ _ _ _ Hs) as (_ & Ho' & Hr' & Hc' & Hk').
  repeat split; [by etrans | congruence | lia | lia].
Qed.


End invariants.

Section reporting.
Context {U St : Type} `{!T St}.
Implicit Types (w : World U St) (r : Timer.t) (f : Script U).

Lemma finish_effect f r w e r' w' :
  finish f (r, w) e (r', w') →
  R.output (rr w) `prefix_of` R.output (rr w')
  ∧ clock w ≤ clock w'
  ∧ (e = GaveUp ∧ rr w' = rr w ∧ calls w' = calls w ∧ clock w' = clock w
       ∧ reporter w' = abandon_with (R.output (rr w)) (reporter w)
     ∨ e = Succeeded ∧ reporter w' = reporter w ∧ calls w' = S (calls w)
       ∧ R.fail (rr w') = false).
Proof.
  inversion 1 as [? ? ? ? HN|? ? ? w1 w2 HN Ha Hf]; subst.
  - apply Next_false_effect in HN as (_ & _ & _ & ->). simpl.
    split; [done|]. split; [done|]. left. done.
  - rewrite attempt_returns in Ha. injection Ha as <-.
    destruct (Next_true_effect _ _ _ _ HN) as (Hrr & Hrep & Hc & _ & Hk).
    destruct (call_effect f w1) as [_ Hr Hn Hclk Ho _ _]. simpl in *.
    rewrite <- Hrr, <- Hrep, <- Hc. split; [done|]. split; [lia|].
    right. done.
Qed.




End reporting.

(** ** Time and the number of attempts *)

Section bound.
Context {U St : Type} `{!T St}.
Variables (timeout wait longest : Z) (f : Script U) (w0 : World U St).
Hypothesis Htimeout : 0 ≤ timeout.
Hypothesis Hwait : 0 ≤ wait.
Hypothesis Hclock : clock_started w0.
Hypothesis Hlongest :
  ∀ w1 : World U St, clock (exec f w1).2 ≤ clock w1 + longest.

Lemma longest_nonneg : 0 ≤ longest.
Proof.
  pose proof (Hlongest w0).
  pose proof (eff_clock _ _ _ (exec_effect f w0)). lia.
Qed.

Lemma turn_bound r w r' w1 :
  at_Next timeout wait longest w0 (r, w) →
  Next fail r w = (Normal (true, r'), w1) →
  r' = Timer.set_stop (clock w0 + timeout) (new_Timer timeout wait)
  ∧ clock (call f w1).2 ≤ clock w0 + timeout + wait + longest.
Proof.
  intros Hat HN. pose proof longest_nonneg as HD.
  unfold clock_started in Hclock. rewrite two_63 in Hclock.
  pose proof (Hlongest (set_calls S w1)) as Hl.
  rewrite <- call_eq in Hl. simpl in Hl.
  apply Next_true_effect in HN as (_ & _ & _ & _ & Hcase).
  unfold at_Next in Hat. simpl in Hat.
  destruct Hat as [[= -> ->]|[-> Hb]]; simpl in *.
  - destruct Hcase as [(_ & -> & Hk)|(? & _)]; [|done].
    split; [done | lia].
  - destruct Hcase as [(Hz & _)|(_ & -> & Hle & Hk)]; [lia|].
    split; [done | lia].
Qed.

Lemma at_Next_steps s :
  rtc (step f) (new_Timer timeout wait, start w0) s →
  at_Next timeout wait longest w0 s.
Proof.
  revert s. apply rtc_ind_r; [by left|].
  intros [r w] [r' w'] _ Hs Hat. inversion Hs as [? ? ? w1 w2 HN Ha Hf].
  subst. rewrite attempt_returns in Ha. injection Ha as <-.
  destruct (turn_bound _ _ _ _ Hat HN) as [-> Hb]. by right.
Qed.

Lemma run_clock_bound n :
  ∃ e r' w',
    RunWith n (new_Timer timeout wait) f w0 = (Normal (e, r'), w')
    ∧ clock w' - clock w0 ≤ timeout + wait + longest.
Proof.
  unfold RunWith. rewrite run_eq. pose proof longest_nonneg as HD.
  destruct (loop_decompose n (new_Timer timeout wait) f (start w0))
    as (e & r' & w' & r1 & w1 & Hl & Hrtc & Hend).
  exists e, r', w'. split; [done|].
  apply at_Next_steps in Hrtc.
  assert (Hhead : clock w1 ≤ clock w0 + timeout + wait + longest).
  { unfold at_Next in Hrtc. simpl in Hrtc.
    destruct Hrtc as [[= _ ->]|[_ Hb]]; simpl; [lia|done]. }
  destruct Hend as [(_ & _ & ->)|Hfin]; [lia|].
  inversion Hfin as [? ? ? ? HN|? ? ? w2 w3 HN Ha Hf]; subst.
  - apply Next_false_effect in HN as (_ & _ & _ & ->). simpl. lia.
  - rewrite attempt_returns in Ha. injection Ha as <-.
    destruct (turn_bound _ _ _ _ Hrtc HN) as [_ Hb]. lia.
Qed.

End bound.

Section counting.
Context {U St : Type} `{!T St}.
Implicit Types (w : World U St) (r : Timer.t) (f : Script U).

(** C10 as amended. A run with a [Timer] of timeout T and wait W, both
    at least zero, in which no attempt takes longer than D, is never
    later than T + W + D after its start, whether the check succeeded,
    the policy gave up or the loop is still running; it stays within
    T + W when the attempts take no time. *)
Theorem run_time_bound timeout wait longest f w n :
  0 ≤ timeout → 0 ≤ wait → clock_started w →
  (∀ w1 : World U St, clock (exec f w1).2 ≤ clock w1 + longest) →
  ∃ e r' w',
    RunWith n (new_Timer timeout wait) f w = (Normal (e, r'), w')
    ∧ clock w' - clock w ≤ timeout + wait + longest.
Proof. intros. by apply run_clock_bound. Qed.

(** From a call of [Next] with the deadline set, a check function that
    always fails is called [m] more times, where [m] is the number of
    turns of length [Wait + d] after which the deadline is passed. *)
Lemma attempts_after_first f r d (m : nat) :
  fails_in (St:=St) d f → 0 ≤ d →
  Timer.stop r ≠ 0 → 0 < Timer.Wait r →
  ∀ w (n : nat),
    Timer.stop r < clock w + Z.of_nat m * (Timer.Wait r + d) →
    (m = 0%nat
     ∨ clock w + (Z.of_nat m - 1) * (Timer.Wait r + d) ≤ Timer.stop r) →
    (m < n)%nat →
    ∃ w', loop n r f w = (Normal (GaveUp, r), w')
          ∧ calls w' = (calls w + m)%nat
          ∧ clock w' = clock w + Z.of_nat m * (Timer.Wait r + d).
Proof.
  intros Hf Hd Hset HW. induction m as [|m IH]; intros w n Hpast Hbefore Hn.
  - destruct n as [|n]; [lia|]. rewrite loop_S.
    pose proof (Next_cases r w) as Hv.
    inversion Hv as [Hz Heq|Hs Hp Heq|Hs Hp Heq]; [done| |lia].
    simpl. eexists. split; [done|]. simpl.
    split; [lia | lia].
  - destruct n as [|n]; [lia|]. rewrite loop_S.
    assert (Hle : clock w ≤ Timer.stop r) by (destruct Hbefore; [lia|nia]).
    unfold Next, Timer_Retryer. rewrite Next_wait by done.
    set (w1 := set_clock _ w).
    destruct (Hf (set_calls S w1)) as [Hfl Hclk]. rewrite <- call_eq in *.
    pose proof (call_effect f w1) as He.
    rewrite (eff_fail_unwound _ _ _ He Hfl).
    destruct (IH (set_rr (R.set_fail false) (call f w1).2) n)
      as (w' & Hl & Hc & Hk); simpl in *.
    + rewrite Hclk. nia.
    + destruct m as [|m]; [by left | right]. rewrite Hclk. nia.
    + lia.
    + exists w'. split; [done|]. rewrite Hc, Hk, Hclk.
      rewrite (eff_calls _ _ _ He). simpl. split; [lia | nia].
Qed.

End counting.

Section first_attempt.
Context {U St : Type} `{!T St}.
Implicit Types (w : World U St) (r : Timer.t) (f : Script U).

Lemma loop_calls_mono n r f w : (calls w ≤ calls (loop n r f w).2)%nat.
Proof.
  destruct (loop_decompose n r f w)
    as (e & r' & w' & r1 & w1 & -> & Hrtc & Hend). simpl.
  apply steps_effect in Hrtc as (_ & _ & Hc & _).
  destruct Hend as [(_ & _ & ->)|Hfin]; [done|].
  apply finish_effect in Hfin
    as (_ & _ & [(_ & _ & Hn & _)|(_ & _ & Hn & _)]); lia.
Qed.

(** The first attempt takes place whatever the timeout is. *)
Lemma first_attempt_occurs timeout wait f n w :
  (calls w < calls (RunWith (S n) (new_Timer timeout wait) f w).2)%nat.
Proof.
  unfold RunWith. rewrite run_eq, loop_S.
  unfold Next, Timer_Retryer. rewrite Next_first by done.
  pose proof (eff_calls _ _ _ (call_effect f (start w))) as Hc.
  cbn [calls set_calls set_rr start] in Hc.
  destruct (R.fail (rr (call f (start w)).2)); [|cbn [snd]; lia].
  match goal with
  | |- context [loop n ?r1 f ?w1] =>
      pose proof (loop_calls_mono n r1 f w1) as Hm
  end.
  cbn [calls set_calls set_rr start] in Hm.
  eapply Nat.lt_le_trans; [|exact Hm]. rewrite Hc. lia.
Qed.

(** C1 as amended. The number of attempts depends on the time the
    attempts take.  With a check function that ends unwound at every
    call and takes the time d each time, a [Timer] of timeout T at
    least zero and of positive wait W, and q the integer quotient of T
    by W: if T mod W < (q + 1) d and q d <= W + T mod W, the loop calls
    the check function q + 1 times and then gives up.  The first
    attempt takes place whatever the timeout and the wait are. *)
Theorem failing_check_attempts timeout wait d f w n :
  0 ≤ timeout → 0 < wait → clock_started w →
  fails_in (St:=St) d f →
  timeout `mod` wait < (timeout / wait + 1) * d →
  timeout / wait * d ≤ wait + timeout `mod` wait →
  (Z.to_nat (timeout / wait) + 1 < n)%nat →
  (∃ r' w',
     RunWith n (new_Timer timeout wait) f w = (Normal (GaveUp, r'), w')
     ∧ calls w' = (calls w + (Z.to_nat (timeout / wait) + 1))%nat)
  ∧ (∀ timeout' wait' (g : Script U) n' w0,
       (calls w0
        < calls (RunWith (S n') (new_Timer timeout' wait') g w0).2)%nat).
Proof.
  intros HT HW Hc Hf Hlow Hhigh Hn.
  split; [|intros; apply first_attempt_occurs].
  assert (Hd : 0 ≤ d).
  { destruct (Hf w) as [_ Hk].
    pose proof (eff_clock _ _ _ (exec_effect f w)). lia. }
  unfold clock_started in Hc. rewrite two_63 in Hc.
  pose proof (Z.div_mod timeout wait ltac:(lia)) as Hdm.
  pose proof (Z.div_pos timeout wait HT HW) as Hq.
  set (q := timeout / wait) in *. set (tm := timeout `mod` wait) in *.
  destruct n as [|n]; [lia|].
  unfold RunWith. rewrite run_eq, loop_S.
  unfold Next, Timer_Retryer. rewrite Next_first by done.
  set (r1 := Timer.set_stop _ _).
  destruct (Hf (set_calls S (start w))) as [Hfl Hclk].
  rewrite <- call_eq in *.
  pose proof (call_effect f (start w)) as He.
  rewrite (eff_fail_unwound _ _ _ He Hfl).
  destruct (attempts_after_first f r1 d (Z.to_nat q) Hf Hd
              ltac:(simpl; lia) ltac:(simpl; lia)
              (set_rr (R.set_fail false) (call f (start w)).2) n)
    as (w' & Hl & Hcalls & _); simpl in *.
  - rewrite Hclk, Z2Nat.id by done. nia.
  - destruct (decide (q = 0)) as [->|Hq0]; [by left | right].
    rewrite Hclk, Z2Nat.id by done. nia.
  - lia.
  - exists r1, w'. split; [done|].
    rewrite Hcalls, (eff_calls _ _ _ He). simpl. lia.
Qed.

End first_attempt.

(** ** The tests of the package, and the properties at work *)

Lemma test_fail_fails_in (d : N) :
  fails_in (St:=list Report) (Z.of_N d) (test_fail d).
Proof. intros w. split; reflexivity. Qed.

(** [TestRunWithFail] wants 11 calls: so it is when an attempt takes a
    microsecond. *)
Example TestRunWithFail :
  let '(fl, w) := RunWith 20 test_Timer (test_fail 1000) world_2026 in
  fl = Normal (GaveUp, Timer.set_stop (year_2026 + 1 * Second) test_Timer)
  ∧ calls w = 11%nat ∧ vars w = 11%nat
  ∧ reporter w
    = [Logged ("retry_test.go:19: fail" +:+ LF); Abandoned].
Proof. vm_compute. done. Qed.

(** [TestRunFail] wants 80 calls with the timeout of 2 s and the wait of
    25 ms of [Run], one less than for [TestRunWithFail]: so it is when an
    attempt takes 0.4 ms. *)
Example TestRunFail :
  let '(fl, w) := Run 100 (test_fail 400000) world_2026 in
  calls w = 80%nat ∧ 2 * Second / (25 * Millisecond) = 80.
Proof. vm_compute. done. Qed.

(** With attempts that take no time at all there is one call more. *)
Example instant_attempts :
  calls (RunWith 20 test_Timer (test_fail 0) world_2026).2 = 12%nat.
Proof. vm_compute. done. Qed.

Example TestRunWithPass :
  let '(fl, w) := RunWith 20 test_Timer (test_pass 1000) world_2026 in
  fl = Normal (Succeeded, Timer.set_stop (year_2026 + 1 * Second) test_Timer)
  ∧ calls w = 1%nat ∧ reporter w = [].
Proof. vm_compute. done. Qed.

(** The reporter of the tests ends up failed when the policy gives up. *)
Example fakeT_failed :
  reporter
    (RunWith 20 test_Timer (test_fail 1000)
       (mkWorld (R.mk false []) year_2026 0%nat {| failed := false |} 0%nat)).2
  = {| failed := true |}.
Proof. vm_compute. done. Qed.

(** A counterexample to C1 as it is stated: a check function that fails at every call and
    takes two seconds is called once, not 11 times, with a timeout of one
    second and a wait of 100 ms. *)
Lemma slow_check_called_once :
  fails_in (St:=list Report) (2 * Second) (test_fail 2000000000)
  ∧ (RunWith 20 test_Timer (test_fail 2000000000) world_2026).1
    = Normal (GaveUp, Timer.set_stop (year_2026 + 1 * Second) test_Timer)
  ∧ calls (RunWith 20 test_Timer (test_fail 2000000000) world_2026).2 = 1%nat
  ∧ calls (RunWith 20 test_Timer (test_fail 2000000000) world_2026).2
    ≠ (Z.to_nat (1 * Second / (100 * Millisecond)) + 1)%nat.
Proof.
  split; [apply (test_fail_fails_in 2000000000)|].
  vm_compute. repeat split; done.
Qed.

(** A counterexample to C10 as it is stated: a check function that succeeds after two
    seconds ends the run two seconds after its start, later than the
    timeout of one second plus the wait of 100 ms. *)
Lemma slow_check_exceeds_bound :
  (RunWith 20 test_Timer (test_pass 2000000000) world_2026).1
  = Normal (Succeeded, Timer.set_stop (year_2026 + 1 * Second) test_Timer)
  ∧ clock (RunWith 20 test_Timer (test_pass 2000000000) world_2026).2
    - clock world_2026 = 2 * Second
  ∧ ¬ (clock (RunWith 20 test_Timer (test_pass 2000000000) world_2026).2
       - clock world_2026 ≤ 1 * Second + 100 * Millisecond).
Proof. vm_compute. repeat split; done. Qed.

(** An instance of the amended C1, at the figures of [TestRunWithFail]. *)
Lemma failing_check_attempts_witness :
  ∃ r' w',
    RunWith 20 (new_Timer (1 * Second) (100 * Millisecond)) (test_fail 1000)
      world_2026 = (Normal (GaveUp, r'), w')
    ∧ calls w' = 11%nat.
Proof.
  apply (proj1 (failing_check_attempts (1 * Second) (100 * Millisecond) 1000
                  (test_fail 1000) world_2026 20
                  ltac:(vm_compute; discriminate) ltac:(reflexivity)
                  ltac:(reflexivity) (test_fail_fails_in 1000)
                  ltac:(reflexivity) ltac:(vm_compute; discriminate)
                  ltac:(vm_compute; lia))).
Defined.

(** An instance of C3, at a check function whose code after [Fatalf] would set the
    counter to 100. *)
Lemma abrupt_fail_contained_witness :
  let g := Local (λ _, 100%nat) Return in
  let f := seq (Local S Return) (Call test_line (OpFatalf "fail") g) in
  let w2 :=
    (call (seq (Local S Return) (Call test_line (OpFatalf "fail") Return))
       world_2026).2 in
  call f world_2026 = (Goexit, w2)
  ∧ attempt f world_2026 = (Normal (), w2)
  ∧ R.fail (rr w2) = true
  ∧ ∀ n r r' w,
      Next fail r w = (Normal (true, r'), world_2026) →
      loop (S n) r f w = loop n r' f (set_rr (R.set_fail false) w2).
Proof.
  exact (abrupt_fail_contained (Local S Return) test_line (OpFatalf "fail")
           (Local (λ _, 100%nat) Return) world_2026 eq_refl eq_refl).
Defined.

(** An instance of C4, at the [Timer] of the tests. *)
Lemma Timer_Next_decides_witness :
  (Timer.stop test_Timer = 0 →
     Timer.Next fail test_Timer world_2026
     = (Normal (true, Timer.set_stop (year_2026 + 1 * Second) test_Timer),
        world_2026)
     ∧ year_2026 + 1 * Second ≠ 0)
  ∧ (Timer.stop test_Timer ≠ 0 → Timer.stop test_Timer < year_2026 →
     Timer.Next fail test_Timer world_2026
     = (fail;; mret (false, test_Timer)) world_2026)
  ∧ (Timer.stop test_Timer ≠ 0 → year_2026 ≤ Timer.stop test_Timer →
     Timer.Next fail test_Timer world_2026
     = (time.Sleep (100 * Millisecond);; mret (true, test_Timer)) world_2026).
Proof.
  apply (Timer_Next_decides fail test_Timer world_2026).
  - vm_compute. split; [discriminate | reflexivity].
  - reflexivity.
Defined.


(** An instance of C6, at the passing check function of the tests. *)
Lemma quiet_check_runs_once_witness :
  ∃ r' w',
    RunWith 1 (new_Timer (1 * Second) (100 * Millisecond)) (test_pass 1000)
      world_2026 = (Normal (Succeeded, r'), w')
    ∧ calls w' = 1%nat
    ∧ reporter w' = []
    ∧ rr w' = R.mk false [].
Proof.
  apply (quiet_check_runs_once (test_pass 1000) 0 (1 * Second)
           (100 * Millisecond) world_2026).
  simpl. exact I.
Defined.



(** An instance of the amended C10, at the passing check function of the tests. *)
Lemma run_time_bound_witness :
  ∃ e r' w',
    RunWith 20 (new_Timer (1 * Second) (100 * Millisecond)) (test_pass 1000)
      world_2026 = (Normal (e, r'), w')
    ∧ clock w' - clock world_2026 ≤ 1 * Second + 100 * Millisecond + 1000.
Proof.
  apply (run_time_bound (1 * Second) (100 * Millisecond) 1000
           (test_pass 1000) world_2026 20).
  - vm_compute. discriminate.
  - vm_compute. discriminate.
  - reflexivity.
  - intros w1. simpl. lia.
Defined.

(** * Part IV: more of the package *)

(** ** [dedup] and the report *)

Lemma dedup_lines (a : list string) : dedup a = lines (first_seen [] a).
Proof.
  unfold dedup. destruct (decide (length a = 0%nat)) as [Hlen|Hlen].
  - by destruct a.
  - rewrite (dedup_emit_first_seen a []); [done|].
    intros s Hs. rewrite dedup_count_keys, elem_of_nil. tauto.
Qed.

Lemma lines_app (l1 l2 : list string) :
  lines (l1 ++ l2) = lines l1 +:+ lines l2.
Proof.
  induction l1 as [|s l1 IH]; simpl; [done|].
  by rewrite IH, !string_app_assoc.
Qed.


(** Only the members of [seen] matter. *)
Lemma first_seen_ext (a seen1 seen2 : list string) :
  (∀ x, x ∈ seen1 ↔ x ∈ seen2) →
  first_seen seen1 a = first_seen seen2 a.
Proof.
  revert seen1 seen2. induction a as [|x a IH]; intros seen1 seen2 Hm; simpl.
  - done.
  - destruct (decide (x ∈ seen1)) as [H1|H1],
             (decide (x ∈ seen2)) as [H2|H2].
    + by apply IH.
    + by apply Hm in H1.
    + by apply Hm in H2.
    + f_equal. apply IH. intros y. rewrite !elem_of_cons, Hm. tauto.
Qed.

Lemma first_seen_app (a b seen : list string) :
  first_seen seen (a ++ b) = first_seen seen a ++ first_seen (a ++ seen) b.
Proof.
  revert seen. induction a as [|x a IH]; intros seen; simpl.
  - done.
  - destruct (decide (x ∈ seen)) as [Hin|Hnin].
    + rewrite IH. f_equal. apply first_seen_ext.
      intros y. rewrite ?elem_of_cons, ?elem_of_app.
      intuition (subst; auto).
    + simpl. f_equal. rewrite IH. f_equal. apply first_seen_ext.
      intros y. rewrite ?elem_of_cons, ?elem_of_app, ?elem_of_cons.
      intuition (subst; auto).
Qed.

Lemma first_seen_all_seen (b seen : list string) :
  (∀ s, s ∈ b → s ∈ seen) → first_seen seen b = [].
Proof.
  intros Hall. destruct (first_seen seen b) as [|x l] eqn:Hfs; [done|].
  assert (Hx : x ∈ first_seen seen b) by (rewrite Hfs; left).
  apply first_seen_elem in Hx as [Hb Hs]. by apply Hall in Hb.
Qed.


(** X2. Lines recorded again add nothing to the report: the report of a
    log followed by more lines is the report of the log followed by the
    new lines only, in the order of their first occurrence; when every
    one of the later lines is in the log already, the report is that of
    the log. *)
Theorem dedup_later_attempts (a b : list string) :
  dedup (a ++ b) = dedup a +:+ lines (first_seen a b)
  ∧ ((∀ s, s ∈ b → s ∈ a) → dedup (a ++ b) = dedup a).
Proof.
  assert (Happ : dedup (a ++ b) = dedup a +:+ lines (first_seen a b)).
  { rewrite !dedup_lines, first_seen_app, lines_app.
    by rewrite app_nil_r. }
  split; [done|]. intros Hall.
  by rewrite Happ, first_seen_all_seen, string_app_empty_r.
Qed.


(** An instance of X2: the log of two attempts that record the same two
    lines. *)
Lemma dedup_later_attempts_witness :
  dedup (["x.go:1: a"; "x.go:2: b"] ++ ["x.go:1: a"; "x.go:2: b"])
  = dedup ["x.go:1: a"; "x.go:2: b"].
Proof.
  apply (proj2 (dedup_later_attempts ["x.go:1: a"; "x.go:2: b"]
                  ["x.go:1: a"; "x.go:2: b"])).
  intros s Hs. exact Hs.
Defined.

(** ** [decorate] *)

(** Where the last separator is: [s] has none, or it is cut by its last
    one into what comes before and what comes after. *)
Lemma LastIndex_from_cases (sep : Ascii.ascii) (s : string) (i found : Z) :
  (LastIndex_from i found s sep = found
   ∧ ∀ j f, LastIndex_from j f s sep = f)
  ∨ ∃ pre suf,
      s = pre +:+ String sep suf
      ∧ (∀ j f, LastIndex_from j f suf sep = f)
      ∧ LastIndex_from i found s sep = i + Z.of_nat (String.length pre).
Proof.
  revert i found. induction s as [|c s IH]; intros i found.
  - left. done.
  - simpl LastIndex_from.
    destruct (IH (i + 1) (if Ascii.eqb c sep then i else found))
      as [[Hr Hno]|(pre & suf & -> & Hno & Hr)].
    + destruct (Ascii.eqb_spec c sep) as [->|Hne].
      * right. exists "", s. split; [done|]. split; [done|].
        rewrite Hr. simpl. lia.
      * left. split; [done|]. intros j f. simpl.
        destruct (Ascii.eqb_spec c sep); [done | apply Hno].
    + right. exists (String c pre), suf. split; [done|]. split; [done|].
      rewrite Hr. simpl String.length. lia.
Qed.

Lemma string_from_app (pre suf : string) :
  string_from (String.length pre) (pre +:+ suf) = suf.
Proof. induction pre as [|c pre IH]; [by destruct suf | exact IH]. Qed.

(** X3. [decorate] puts in front of the message the file and the line of
    the frame three above it, which is the caller of the exported method,
    and [???:1] when the stack has no such frame.  Of the file it keeps
    the name alone: what it keeps holds no slash, and the path is a
    directory part, empty or ending in a slash, followed by it. *)
Theorem decorate_short_location (in_log in_method site : Frame)
    (above : Stack) (s : string) :
  decorate (in_log :: in_method :: site :: above) s
    = basename (file site) +:+ ":" +:+ pretty (line site) +:+ ": " +:+ s
  ∧ decorate [in_log; in_method] s = "???:1: " +:+ s
  ∧ LastIndex (basename (file site)) "/"%char = -1
  ∧ ∃ dir,
      file site = dir +:+ basename (file site)
      ∧ (dir = "" ∨ ∃ d, dir = d +:+ "/").
Proof.
  split; [reflexivity|]. split; [reflexivity|].
  unfold basename, LastIndex. cbv zeta.
  destruct (LastIndex_from_cases "/"%char (file site) 0 (-1))
    as [[-> Hno]|(pre & suf & Hcut & Hno & ->)].
  - simpl. split; [apply Hno|]. exists "". split; [done | by left].
  - rewrite Hcut.
    destruct (0 <=? 0 + Z.of_nat (String.length pre)) eqn:Hle;
      [|apply Z.leb_gt in Hle; lia].
    replace (Z.to_nat (0 + Z.of_nat (String.length pre) + 1))
      with (String.length (pre +:+ "/")).
    + replace (pre +:+ String "/"%char suf) with ((pre +:+ "/") +:+ suf)
        by (by rewrite string_app_assoc).
      rewrite string_from_app. split; [apply Hno|].
      exists (pre +:+ "/"). split; [done|]. right. by exists pre.
    + clear. induction pre as [|c pre IH]; [done|].
      simpl String.length. rewrite IH. lia.
Qed.

(** ** The methods of [R] that unwind *)

(** X4. [Fatal] and [Fatalf] add one line, the message with the place of
    their caller in front, to the log, set the fail flag and unwind the
    goroutine; [FailNow] sets the flag and unwinds without adding a line.
    None of them lets the rest of the check function run. *)
Theorem Fatal_records_and_unwinds {U St} (site : Frame) (above : Stack)
    (s : string) (r : R.t) (rest : Script U) (w : World U St) :
  R.Fatal (site :: above) s r
    = (Goexit, R.mk true (R.output r ++ [located site s]))
  ∧ R.Fatalf (site :: above) s r = R.Fatal (site :: above) s r
  ∧ R.FailNow r = (Goexit, R.mk true (R.output r))
  ∧ exec (Call site (OpFatal s) rest) w
    = (Goexit, set_rr (record true site s) w)
  ∧ exec (Call site (OpFatalf s) rest) w
    = (Goexit, set_rr (record true site s) w)
  ∧ exec (Call site OpFailNow rest) w = (Goexit, set_rr (R.set_fail true) w).
Proof. repeat split. Qed.

(** ** Soft failures *)

Lemma Error_records_and_returns_aux {U St} (site : Frame) (s : string)
    (rest : Script U) (w : World U St) :
  ∃ w', exec (Call site (OpError s) rest) w = exec rest w'
        ∧ R.fail (rr w') = true.
Proof.
  exists (set_rr (record true site s) w). split; [|done].
  destruct w as [r' c v t n]. reflexivity.
Qed.

(** X5. Once the check function has called [Error], the attempt counts
    as failed whatever the function does afterwards: no method clears the
    fail flag, so that after the attempt the loop clears the flag itself
    and goes to its next turn instead of leaving by [break]. *)
Theorem Error_fails_the_attempt {U St} `{!T St} (pre rest : Script U)
    (site : Frame) (s : string) (w0 : World U St) :
  (call pre w0).1 = Normal () →
  let f := seq pre (Call site (OpError s) rest) in
  R.fail (rr (call f w0).2) = true
  ∧ ∀ n r r' w,
      Next fail r w = (Normal (true, r'), w0) →
      loop (S n) r f w
      = loop n r' f (set_rr (R.set_fail false) (call f w0).2).
Proof.
  intros Hpre f.
  assert (Hfail : R.fail (rr (call f w0).2) = true).
  { unfold f. rewrite call_eq, exec_seq. rewrite call_eq in Hpre.
    destruct (exec pre (set_calls S w0)) as [[[]| |] w1]; try done.
    destruct (Error_records_and_returns_aux site s rest w1) as [w2 [-> Hw2]].
    by apply (eff_fail_kept _ _ _ (exec_effect rest w2)). }
  split; [done|]. intros n r r' w HN.
  by rewrite loop_S, HN, Hfail.
Qed.

(** ** A [Timer] used more than once *)

(** X6. [Next] never changes [Timeout] or [Wait], and never moves a
    deadline that is set: only the call that finds the deadline unset
    writes it.  It answers false only with the deadline set and passed. *)
Theorem Next_keeps_settings {U St} (fail : Go (World U St) ()) (r r' : Timer.t)
    (b : bool) (w w' : World U St) :
  Timer.Next fail r w = (Normal (b, r'), w') →
  Timer.Timeout r' = Timer.Timeout r
  ∧ Timer.Wait r' = Timer.Wait r
  ∧ (Timer.stop r ≠ 0 → r' = r)
  ∧ (b = false → Timer.stop r ≠ 0 ∧ Timer.stop r < clock w).
Proof.
  intros HN. destruct (decide (Timer.stop r = 0)) as [Hz|Hset].
  - rewrite Next_first in HN by done. by injection HN as <- <- <-.
  - destruct (decide (Timer.stop r < clock w)) as [Hpast|Hnot].
    + rewrite Next_past in HN by done. unfold mbind, Go_bind in HN.
      destruct (fail w) as [[[]| |] w1]; try done.
      by injection HN as <- <- <-.
    + rewrite Next_wait in HN by (done || lia).
      by injection HN as <- <- <-.
Qed.

Lemma run_expired {U St} `{!T St} (n : nat) (r : Timer.t) (f : Script U)
    (w : World U St) :
  Timer.stop r ≠ 0 → Timer.stop r < clock w →
  RunWith (S n) r f w = (Normal (GaveUp, r), set_reporter FailNow (start w)).
Proof.
  intros Hset Hpast. unfold RunWith. rewrite run_eq, loop_S.
  unfold Next, Timer_Retryer. rewrite Next_past by done.
  unfold mbind, Go_bind. rewrite fail_eq. reflexivity.
Qed.

Lemma gave_up_expired {U St} `{!T St} (n : nat) (r r' : Timer.t)
    (f : Script U) (w w' : World U St) :
  RunWith n r f w = (Normal (GaveUp, r'), w') →
  Timer.stop r' ≠ 0 ∧ Timer.stop r' < clock w'.
Proof.
  unfold RunWith. rewrite run_eq. intros Hrun.
  destruct (loop_decompose n r f (start w))
    as (e & r2 & w2 & r1 & w1 & Hl & _ & Hend).
  rewrite Hrun in Hl. injection Hl as <- <- <-.
  destruct Hend as [(? & _)|Hfin]; [done|].
  inversion Hfin as [? ? ? ? HN|]; subst.
  by apply Next_false_effect in HN as (-> & ? & ? & ->).
Qed.

(** X7. A [Timer] that has given up stays so: a later run with it, at
    any later time and with any check function, gives up in its first
    turn without calling the check function; the reporter receives
    [FailNow] and no [Log], the log of the new run being empty. *)
Theorem given_up_Timer_stays_given_up {U St} `{!T St} (n : nat)
    (r r' : Timer.t) (f : Script U) (w w' : World U St) :
  RunWith n r f w = (Normal (GaveUp, r'), w') →
  ∀ (m : nat) (g : Script U) (w2 : World U St),
    clock w' ≤ clock w2 →
    RunWith (S m) r' g w2
    = (Normal (GaveUp, r'), set_reporter FailNow (start w2)).
Proof.
  intros Hrun m g w2 Hlater.
  apply gave_up_expired in Hrun as [Hset Hpast].
  apply run_expired; [done | lia].
Qed.

(** X8. A [Timer] whose deadline is set and not passed is not armed
    again: a run with it sleeps for [Wait] before its first attempt and
    keeps the deadline; with a check function that records no failure the
    run is left by [break] after that one attempt. *)
Theorem reused_Timer_keeps_deadline {U St} `{!T St} (n : nat) (r : Timer.t)
    (f : Script U) (w : World U St) :
  quiet f →
  Timer.stop r ≠ 0 → clock w ≤ Timer.stop r →
  RunWith (S n) r f w
  = (Normal (Succeeded, r),
     (call f (set_clock (λ c, c + Z.max 0 (Timer.Wait r)) (start w))).2).
Proof.
  intros Hq Hset Hle. unfold RunWith. rewrite run_eq, loop_S.
  unfold Next, Timer_Retryer. rewrite Next_wait by done.
  rewrite (call_eq f).
  destruct (quiet_exec f
              (set_calls S
                 (set_clock (λ c, c + Z.max 0 (Timer.Wait r)) (start w)))
              Hq) as [_ ->].
  reflexivity.
Qed.

(** ** How many attempts at most *)

Lemma out_of_fuel_calls {U St} `{!T St} (n : nat) (r r' : Timer.t)
    (f : Script U) (w w' : World U St) :
  loop n r f w = (Normal (OutOfFuel, r'), w') →
  calls w' = (calls w + n)%nat.
Proof.
  revert r w. induction n as [|n IH]; intros r w Hl.
  - injection Hl as _ <-. lia.
  - rewrite loop_S in Hl.
    destruct (Next fail r w) as [[[[|] r1]| |] w1] eqn:HN; try done.
    apply Next_true_effect in HN as (_ & _ & Hc & _).
    pose proof (eff_calls _ _ _ (call_effect f w1)) as Hk.
    destruct (R.fail (rr (call f w1).2)); [|done].
    apply IH in Hl. cbn [calls set_rr set_calls] in *. lia.
Qed.

(** After [k] attempts at least [k - 1] waits have passed, and the last
    of them was allowed before the deadline. *)
Lemma attempts_invariant {U St} `{!T St} (timeout wait : Z) (f : Script U)
    (w0 : World U St) (s : Timer.t * World U St) :
  0 ≤ timeout → 0 < wait → clock_started w0 →
  rtc (step f) (new_Timer timeout wait, start w0) s →
  s = (new_Timer timeout wait, start w0)
  ∨ s.1 = Timer.set_stop (clock w0 + timeout) (new_Timer timeout wait)
    ∧ ∃ k : Z,
        Z.of_nat (calls s.2) = Z.of_nat (calls w0) + k ∧ 1 ≤ k
        ∧ clock w0 + (k - 1) * wait ≤ clock s.2
        ∧ (k - 2) * wait ≤ timeout.
Proof.
  intros HT HW Hc. unfold clock_started in Hc. rewrite two_63 in Hc.
  revert s. apply rtc_ind_r; [by left|].
  intros [r w] [r' w'] _ Hs Hat. right. cbn [fst snd] in Hat.
  inversion Hs as [? ? ? w1 w2 HN Ha Hf]; subst.
  rewrite attempt_returns in Ha. injection Ha as <-.
  apply Next_true_effect in HN as (_ & _ & Hcalls & _ & Hcase).
  destruct (call_effect f w1) as [_ _ Hn Hclk _ _ _].
  cbn [calls clock set_rr set_calls fst snd] in *.
  destruct Hat as [[= -> ->]|[-> (k & Hk & H1 & Hlow & Hhigh)]];
    cbn [calls clock set_rr start Timer.stop Timer.set_stop new_Timer
         Timer.Wait Timer.Timeout fst snd] in *.
  - destruct Hcase as [(_ & -> & Hw1)|(? & _)]; [|done].
    split; [done|]. exists 1. lia.
  - destruct Hcase as [(Hz & _)|(_ & -> & Hle & Hw1)]; [lia|].
    split; [done|]. exists (k + 1). nia.
Qed.

Lemma attempts_bounded {U St} `{!T St} (timeout wait : Z) (f : Script U)
    (w : World U St) (n : nat) :
  0 ≤ timeout → 0 < wait → clock_started w →
  ∃ e r' w',
    RunWith n (new_Timer timeout wait) f w = (Normal (e, r'), w')
    ∧ (calls w' ≤ calls w + (Z.to_nat (timeout / wait) + 2))%nat
    ∧ ((Z.to_nat (timeout / wait) + 2 < n)%nat → e ≠ OutOfFuel).
Proof.
  intros HT HW Hc. unfold RunWith. rewrite run_eq.
  pose proof (Z.div_pos timeout wait HT HW) as Hq.
  assert (Hdiv : ∀ k : Z, (k - 2) * wait ≤ timeout → k - 2 ≤ timeout / wait)
    by (intros k Hk; apply Z.div_le_lower_bound; lia).
  destruct (loop_decompose n (new_Timer timeout wait) f (start w))
    as (e & r' & w' & r1 & w1 & Hl & Hrtc & Hend).
  exists e, r', w'. split; [done|].
  pose proof (attempts_invariant _ _ _ _ _ HT HW Hc Hrtc) as Hat.
  cbn [fst snd] in Hat.
  assert (Hcalls : (calls w' ≤ calls w + (Z.to_nat (timeout / wait) + 2))%nat).
  { destruct Hend as [(_ & _ & ->)|Hfin].
    - destruct Hat as [[= _ ->]|[_ (k & Hk & _ & _ & Hhigh)]];
        cbn [calls set_rr start snd] in *; [lia|].
      apply Hdiv in Hhigh. lia.
    - inversion Hfin as [? ? ? ? HN|? ? ? w2 w3 HN Ha Hf]; subst.
      + apply Next_false_effect in HN as (_ & _ & _ & ->).
        destruct Hat as [[= _ ->]|[_ (k & Hk & _ & _ & Hhigh)]];
          cbn [calls set_rr set_reporter start snd] in *; [lia|].
        apply Hdiv in Hhigh. lia.
      + rewrite attempt_returns in Ha. injection Ha as <-.
        apply Next_true_effect in HN as (_ & _ & Hn & _ & Hcase).
        pose proof (eff_calls _ _ _ (call_effect f w2)) as Hk2.
        unfold clock_started in Hc. rewrite two_63 in Hc.
        destruct Hat as [[= -> ->]|[-> (k & Hk & H1 & Hlow & Hhigh)]];
          cbn [calls clock set_rr set_calls start Timer.stop Timer.set_stop
               new_Timer fst snd] in *; [lia|].
        destruct Hcase as [(Hz & _)|(_ & _ & Hle & _)]; [lia|].
        assert (Hk1 : (k + 1 - 2) * wait ≤ timeout) by nia.
        apply Hdiv in Hk1. lia. }
  split; [done|]. intros Hn ->.
  apply out_of_fuel_calls in Hl. cbn [calls set_rr start] in Hl. lia.
Qed.

(** X9. Whatever the check function does and however long it takes, a
    run with a fresh [Timer] of timeout T at least zero and of positive
    wait W calls it at most floor(T/W) + 2 times, and the loop is left
    within floor(T/W) + 3 turns. *)
Theorem attempts_at_most {U St} `{!T St} (timeout wait : Z) (f : Script U)
    (w : World U St) (n : nat) :
  0 ≤ timeout → 0 < wait → clock_started w →
  ∃ e r' w',
    RunWith n (new_Timer timeout wait) f w = (Normal (e, r'), w')
    ∧ (calls w' ≤ calls w + (Z.to_nat (timeout / wait) + 2))%nat
    ∧ ((Z.to_nat (timeout / wait) + 2 < n)%nat → e ≠ OutOfFuel).
Proof. intros. by apply attempts_bounded. Qed.

(** X10. [Run], with its timeout of 2 s and its wait of 25 ms, calls the
    check function at least once and at most 82 times, and its loop is
    left within 83 turns, whatever the check function does. *)
Theorem Run_at_most_82_calls {U St} `{!T St} (f : Script U) (w : World U St) :
  clock_started w →
  ∃ e r' w',
    Run 83 f w = (Normal (e, r'), w')
    ∧ e ≠ OutOfFuel
    ∧ (calls w < calls w' ≤ calls w + 82)%nat.
Proof.
  intros Hc. unfold Run.
  destruct (attempts_bounded (2 * Second) (25 * Millisecond) f w 83
              ltac:(done) ltac:(done) Hc) as (e & r' & w' & Hrun & Hle & Hfuel).
  exists e, r', w'. split; [done|].
  change (Z.to_nat (2 * Second / (25 * Millisecond)) + 2)%nat
    with 82%nat in *.
  split; [apply Hfuel; lia|]. split; [|done].
  pose proof (first_attempt_occurs (2 * Second) (25 * Millisecond) f 82 w)
    as Hfirst.
  by rewrite Hrun in Hfirst.
Qed.

(** ** Timeouts at the edge *)

(** X11. With a negative [Timeout] the deadline is passed as soon as it
    is set: the check function is called once, and if that attempt fails
    the policy gives up at once, without sleeping, whatever [Wait] is. *)
Theorem negative_Timeout_one_attempt {U St} `{!T St} (timeout wait : Z)
    (f : Script U) (n : nat) (w : World U St) :
  timeout < 0 → is_Duration timeout → clock_started w →
  ∃ e w',
    RunWith (S (S n)) (new_Timer timeout wait) f w
    = (Normal (e, Timer.set_stop (clock w + timeout) (new_Timer timeout wait)),
       w')
    ∧ e = (if R.fail (rr (call f (start w)).2) then GaveUp else Succeeded)
    ∧ calls w' = S (calls w)
    ∧ clock w' = clock (call f (start w)).2.
Proof.
  intros Hneg HT Hc. unfold is_Duration, clock_started in *.
  rewrite two_63 in *.
  unfold RunWith. rewrite run_eq, loop_S.
  unfold Next, Timer_Retryer. rewrite Next_first by done.
  destruct (call_effect f (start w)) as [_ _ Hn Hclk _ _ _].
  cbn [calls clock set_calls set_rr start] in Hn, Hclk.
  destruct (R.fail (rr (call f (start w)).2)) eqn:Hf.
  - rewrite loop_S. unfold Next, Timer_Retryer.
    rewrite Next_past by (simpl; lia).
    unfold mbind, Go_bind. rewrite fail_eq.
    eexists _, _. split; [reflexivity|]. by cbn.
  - eexists _, _. split; [reflexivity|]. by cbn.
Qed.


(** ** The reporter of the tests *)

(** X13. With the reporter of the package's tests, not failed before the
    run, the reporter is failed after the run exactly when the policy
    gave up. *)
Theorem fakeT_failed_iff_gave_up {U} (n : nat) (r r' : Timer.t)
    (f : Script U) (w w' : World U fakeT) (e : Exit) :
  failed (reporter w) = false →
  RunWith n r f w = (Normal (e, r'), w') →
  (failed (reporter w') = true ↔ e = GaveUp).
Proof.
  intros Hok. unfold RunWith. rewrite run_eq. intros Hrun.
  destruct (loop_decompose n r f (start w))
    as (e2 & r2 & w2 & r1 & w1 & Hl & Hrtc & Hend).
  rewrite Hrun in Hl. injection Hl as <- <- <-.
  apply steps_effect in Hrtc as (_ & Hrep & _). simpl in Hrep.
  destruct Hend as [(-> & _ & ->)|Hfin].
  - rewrite Hrep, Hok. done.
  - apply finish_effect in Hfin
      as (_ & _ & [(-> & _ & _ & _ & Hr)|(-> & Hr & _)]).
    + rewrite Hr. done.
    + rewrite Hr, Hrep, Hok. done.
Qed.

(** ** The properties of this part at work *)

(** An instance of X5: [Error], then code that returns. *)
Lemma Error_fails_the_attempt_witness :
  let f := seq (Local S Return)
               (Call test_line (OpError "soft") (Local S Return)) in
  R.fail (rr (call f world_2026).2) = true
  ∧ ∀ n r r' w,
      Next fail r w = (Normal (true, r'), world_2026) →
      loop (S n) r f w
      = loop n r' f (set_rr (R.set_fail false) (call f world_2026).2).
Proof.
  exact (Error_fails_the_attempt (Local S Return) (Local S Return) test_line
           "soft" world_2026 eq_refl).
Defined.

(** An instance of X6, at the first call of [Next] in the test. *)
Lemma Next_keeps_settings_witness :
  Timer.Timeout (Timer.set_stop (year_2026 + 1 * Second) test_Timer)
    = Timer.Timeout test_Timer
  ∧ Timer.Wait (Timer.set_stop (year_2026 + 1 * Second) test_Timer)
    = Timer.Wait test_Timer
  ∧ (Timer.stop test_Timer ≠ 0
     → Timer.set_stop (year_2026 + 1 * Second) test_Timer = test_Timer)
  ∧ (true = false
     → Timer.stop test_Timer ≠ 0 ∧ Timer.stop test_Timer < clock world_2026).
Proof.
  exact (Next_keeps_settings fail test_Timer
           (Timer.set_stop (year_2026 + 1 * Second) test_Timer) true
           world_2026 world_2026 eq_refl).
Defined.

(** An instance of X7: the [Timer] of [TestRunWithFail], used again for a
    check function that would pass. *)
Lemma given_up_Timer_stays_given_up_witness :
  RunWith 1 (Timer.set_stop (year_2026 + 1 * Second) test_Timer)
    (test_pass 1000)
    (RunWith 20 test_Timer (test_fail 1000) world_2026).2
  = (Normal (GaveUp, Timer.set_stop (year_2026 + 1 * Second) test_Timer),
     set_reporter FailNow
       (start (RunWith 20 test_Timer (test_fail 1000) world_2026).2)).
Proof.
  apply (given_up_Timer_stays_given_up 20 test_Timer
           (Timer.set_stop (year_2026 + 1 * Second) test_Timer)
           (test_fail 1000) world_2026
           (RunWith 20 test_Timer (test_fail 1000) world_2026).2).
  - vm_compute. reflexivity.
  - vm_compute. discriminate.
Defined.

(** An instance of X8: the [Timer] of [TestRunWithPass], used again at
    once. *)
Lemma reused_Timer_keeps_deadline_witness :
  RunWith 1 (Timer.set_stop (year_2026 + 1 * Second) test_Timer)
    (test_pass 1000) world_2026
  = (Normal (Succeeded, Timer.set_stop (year_2026 + 1 * Second) test_Timer),
     (call (test_pass 1000)
        (set_clock (λ c, c + Z.max 0 (100 * Millisecond))
           (start world_2026))).2).
Proof.
  apply (reused_Timer_keeps_deadline 0
           (Timer.set_stop (year_2026 + 1 * Second) test_Timer)
           (test_pass 1000) world_2026).
  - simpl. exact I.
  - vm_compute. discriminate.
  - vm_compute. discriminate.
Defined.

(** An instance of X9, at the figures of [TestRunWithFail]. *)
Lemma attempts_at_most_witness :
  ∃ e r' w',
    RunWith 20 (new_Timer (1 * Second) (100 * Millisecond)) (test_fail 1000)
      world_2026 = (Normal (e, r'), w')
    ∧ (calls w'
       ≤ calls world_2026
         + (Z.to_nat (1 * Second / (100 * Millisecond)) + 2))%nat
    ∧ ((Z.to_nat (1 * Second / (100 * Millisecond)) + 2 < 20)%nat
       → e ≠ OutOfFuel).
Proof.
  apply (attempts_at_most (1 * Second) (100 * Millisecond) (test_fail 1000)
           world_2026 20).
  - vm_compute. discriminate.
  - reflexivity.
  - reflexivity.
Defined.

(** An instance of X10. *)
Lemma Run_at_most_82_calls_witness :
  ∃ e r' w',
    Run 83 (test_fail 400000) world_2026 = (Normal (e, r'), w')
    ∧ e ≠ OutOfFuel
    ∧ (calls world_2026 < calls w' ≤ calls world_2026 + 82)%nat.
Proof.
  apply (Run_at_most_82_calls (test_fail 400000) world_2026). reflexivity.
Defined.

(** An instance of X11: a timeout of minus one second. *)
Lemma negative_Timeout_one_attempt_witness :
  ∃ e w',
    RunWith 2 (new_Timer (- Second) (100 * Millisecond)) (test_fail 1000)
      world_2026
    = (Normal (e, Timer.set_stop (clock world_2026 + - Second)
                    (new_Timer (- Second) (100 * Millisecond))), w')
    ∧ e = (if R.fail (rr (call (test_fail 1000) (start world_2026)).2)
           then GaveUp else Succeeded)
    ∧ calls w' = S (calls world_2026)
    ∧ clock w' = clock (call (test_fail 1000) (start world_2026)).2.
Proof.
  apply (negative_Timeout_one_attempt (- Second) (100 * Millisecond)
           (test_fail 1000) 0 world_2026).
  - reflexivity.
  - vm_compute. split; [discriminate | reflexivity].
  - reflexivity.
Defined.


(** An instance of X13: the run of [TestRunWithFail] with [fakeT]. *)
Lemma fakeT_failed_iff_gave_up_witness :
  failed
    (reporter
       (RunWith 20 test_Timer (test_fail 1000)
          (mkWorld (R.mk false []) year_2026 0%nat {| failed := false |}
             0%nat)).2) = true
  ↔ GaveUp = GaveUp.
Proof.
  apply (fakeT_failed_iff_gave_up 20 test_Timer
           (Timer.set_stop (year_2026 + 1 * Second) test_Timer)
           (test_fail 1000)
           (mkWorld (R.mk false []) year_2026 0%nat {| failed := false |}
              0%nat)).
  - reflexivity.
  - vm_compute. reflexivity.
Defined.
